(** * Snapshot-isolated transactions over a key-value store

    A shallow embedding of [db/transaction.h] and [db/transaction.cc]: the
    optimistic concurrency control layer that buffers writes, tracks reads
    against a fixed snapshot and validates at commit.

    The store ([leveldb::DB]) is an abstract C++ class whose implementation is
    not part of these sources; it is a type class here, and every result about
    the transaction holds for every instance.  A small in-memory instance is
    used to run the code on concrete inputs. *)

From stdpp Require Import gmap strings list fin_maps.

Set Default Proof Using "Type".

(* ===================================================================== *)
(** ** Status *)
(* ===================================================================== *)

(** Modelled from the spec: [leveldb::Status] is declared outside these
    sources.  A status is either OK or carries an error code and the two
    message slices it was built from. *)
Inductive Code := kNotFound | kCorruption | kNotSupported | kInvalidArgument | kIOError.

Record Failure := { code : Code; msg : string; msg2 : string }.

Inductive Status := OK | Err (f : Failure).

#[global] Instance Code_eq_dec : EqDecision Code.
Proof. solve_decision. Defined.
#[global] Instance Failure_eq_dec : EqDecision Failure.
Proof. solve_decision. Defined.
#[global] Instance Status_eq_dec : EqDecision Status.
Proof. solve_decision. Defined.

Definition ok (s : Status) : bool :=
  match s with OK => true | Err _ => false end.

Definition NotFound (m : string) : Status :=
  Err {| code := kNotFound; msg := m; msg2 := EmptyString |}.
Definition Corruption (m m2 : string) : Status :=
  Err {| code := kCorruption; msg := m; msg2 := m2 |}.
Definition InvalidArgument (m : string) : Status :=
  Err {| code := kInvalidArgument; msg := m; msg2 := EmptyString |}.

Definition status_code (s : Status) : option Code :=
  match s with OK => None | Err f => Some (code f) end.

(** The conditions the public contract names. *)
Definition IsNotFound (s : Status) : Prop := status_code s = Some kNotFound.
Definition IsConflict (s : Status) : Prop := status_code s = Some kCorruption.
Definition IsInvalidState (s : Status) : Prop := status_code s = Some kInvalidArgument.

(* ===================================================================== *)
(** ** The store interface *)
(* ===================================================================== *)

(** Modelled from the spec: [leveldb::WriteBatch] is declared outside these
    sources; it accumulates Put/Delete operations in order and can be
    cleared. *)
Inductive WriteOp :=
| BatchPut (key value : string)
| BatchDelete (key : string).

Abbreviation WriteBatch := (list WriteOp).

(** Outcome of [DB::Get]: the value stored under the key, or a non-OK status
    (NotFound, or some other error). *)
Inductive GetResult :=
| Found (v : string)
| NoValue (f : Failure).

(** Modelled from the spec: the operations of [leveldb::DB] the transaction
    consumes.  [db_Get d None k] reads the latest committed state,
    [db_Get d (Some s) k] reads as of snapshot [s]. *)
Class Store (DB Snapshot : Type) := {
  db_GetSnapshot : DB → option Snapshot * DB;
  db_Get : DB → option Snapshot → string → GetResult;
  db_Write : DB → WriteBatch → Status * DB
}.

(** Calls made on the store, recorded in program order. *)
Inductive StoreCall (Snapshot : Type) :=
| CallGetSnapshot
| CallGet (snapshot : option Snapshot) (key : string)
| CallWrite (batch : WriteBatch).
Arguments CallGetSnapshot {_}.
Arguments CallGet {_} _ _.
Arguments CallWrite {_} _.

(* ===================================================================== *)
(** ** An in-memory store *)
(* ===================================================================== *)

Module MemDB.

(** The committed contents, and two switches for the failure cases of the
    interface: snapshot acquisition returning null and a failing write. *)
Record t := {
  contents : gmap string string;
  snapshots_available : bool;
  writes_succeed : bool
}.

Definition apply_op (m : gmap string string) (o : WriteOp) : gmap string string :=
  match o with
  | BatchPut k v => <[k := v]> m
  | BatchDelete k => delete k m
  end.

Definition read (m : gmap string string) (k : string) : GetResult :=
  match m !! k with
  | Some v => Found v
  | None => NoValue {| code := kNotFound; msg := EmptyString; msg2 := EmptyString |}
  end.

(** A snapshot handle is the frozen contents at the time it was taken. *)
#[global] Instance mem_store : Store t (gmap string string) := {
  db_GetSnapshot d :=
    (if snapshots_available d then Some (contents d) else None, d);
  db_Get d snap k :=
    match snap with
    | Some m => read m k
    | None => read (contents d) k
    end;
  db_Write d b :=
    if writes_succeed d
    then (OK, {| contents := foldl apply_op (contents d) b;
                 snapshots_available := snapshots_available d;
                 writes_succeed := writes_succeed d |})
    else (Err {| code := kIOError; msg := "write failed"; msg2 := EmptyString |}, d)
}.

Definition of_list (l : list (string * string)) : t :=
  {| contents := list_to_map l; snapshots_available := true; writes_succeed := true |}.

End MemDB.

(* ===================================================================== *)
(** ** The transaction *)
(* ===================================================================== *)

Inductive TransactionState := ACTIVE | COMMITTED | ABORTED.

#[global] Instance TransactionState_eq_dec : EqDecision TransactionState.
Proof. solve_decision. Defined.

(** [struct BufferEntry]. *)
Record BufferEntry := { value : string; is_tombstone : bool }.

#[global] Instance BufferEntry_eq_dec : EqDecision BufferEntry.
Proof. solve_decision. Defined.

Definition BufferEntry_of (v : string) : BufferEntry :=
  {| value := v; is_tombstone := false |}.
Definition Tombstone : BufferEntry :=
  {| value := EmptyString; is_tombstone := true |}.

(** [DB* db_]: null, or the address of the one store of the model. *)
Inductive DBPtr := null_db | the_db.

Section Transaction.
Context {DB Snapshot : Type} `{!Store DB Snapshot}.

(** The data members of [class Transaction]. *)
Record Transaction := {
  db_ : DBPtr;
  snapshot_ : option Snapshot;
  state_ : TransactionState;
  read_set_ : gset string;
  write_buffer_ : gmap string BufferEntry;
  write_batch_ : WriteBatch
}.

(** What a member function can read and change: the object itself, the
    store behind [db_], and the record of the calls made on the store. *)
Record Heap := {
  this : Transaction;
  store : DB;
  calls : list (StoreCall Snapshot)
}.

(** Member functions are state transformers over the heap. *)
Definition Method (A : Type) : Type := Heap → A * Heap.

Definition ret {A} (a : A) : Method A := fun h => (a, h).
Definition bind {A B} (m : Method A) (k : A → Method B) : Method B :=
  fun h => let (a, h') := m h in k a h'.

End Transaction.

Arguments Transaction : clear implicits.
Arguments Heap : clear implicits.
Arguments Method : clear implicits.

Declare Scope method_scope.
Delimit Scope method_scope with method.
Notation "x <- m ;; k" := (bind m (fun x => k))
  (at level 20, m at level 99, k at level 200, only parsing) : method_scope.
Notation "' p <- m ;; k" := (bind m (fun x => let 'p := x in k))
  (at level 20, p pattern, m at level 99, k at level 200, only parsing) : method_scope.
Notation "m ;; k" := (bind m (fun _ => k))
  (at level 100, k at level 200, only parsing, right associativity) : method_scope.

Section Methods.
Context {DB Snapshot : Type} `{!Store DB Snapshot}.

Local Open Scope method_scope.

Abbreviation Txn := (Transaction Snapshot).
Abbreviation heap := (Heap DB Snapshot).
Abbreviation method := (Method DB Snapshot).

(** *** Access to the data members and to the store *)

Definition get_this : method Txn := fun h => (this h, h).

Definition set_this (t : Txn) : method unit :=
  fun h => (tt, {| this := t; store := store h; calls := calls h |}).

Definition with_snapshot_ (t : Txn) (p : option Snapshot) : Txn :=
  {| db_ := db_ t; snapshot_ := p; state_ := state_ t;
     read_set_ := read_set_ t; write_buffer_ := write_buffer_ t;
     write_batch_ := write_batch_ t |}.

Definition with_state_ (t : Txn) (s : TransactionState) : Txn :=
  {| db_ := db_ t; snapshot_ := snapshot_ t; state_ := s;
     read_set_ := read_set_ t; write_buffer_ := write_buffer_ t;
     write_batch_ := write_batch_ t |}.

Definition with_read_set_ (t : Txn) (r : gset string) : Txn :=
  {| db_ := db_ t; snapshot_ := snapshot_ t; state_ := state_ t;
     read_set_ := r; write_buffer_ := write_buffer_ t;
     write_batch_ := write_batch_ t |}.

Definition with_write_buffer_ (t : Txn) (b : gmap string BufferEntry) : Txn :=
  {| db_ := db_ t; snapshot_ := snapshot_ t; state_ := state_ t;
     read_set_ := read_set_ t; write_buffer_ := b;
     write_batch_ := write_batch_ t |}.

Definition with_write_batch_ (t : Txn) (b : WriteBatch) : Txn :=
  {| db_ := db_ t; snapshot_ := snapshot_ t; state_ := state_ t;
     read_set_ := read_set_ t; write_buffer_ := write_buffer_ t;
     write_batch_ := b |}.

Definition set_state_ (s : TransactionState) : method unit :=
  t <- get_this ;; set_this (with_state_ t s).

Definition set_read_set_ (r : gset string) : method unit :=
  t <- get_this ;; set_this (with_read_set_ t r).

Definition set_write_buffer_ (b : gmap string BufferEntry) : method unit :=
  t <- get_this ;; set_this (with_write_buffer_ t b).

Definition set_write_batch_ (b : WriteBatch) : method unit :=
  t <- get_this ;; set_this (with_write_batch_ t b).

(** Modelled from the spec: [db->Get(options, key, value)] yields a value,
    NotFound or an error.  On success the value is stored through the
    out-parameter; otherwise the out-parameter is left as it was.  The call
    is recorded. *)
Definition DB_Get (snapshot : option Snapshot) (key : string) (value : string)
  : method (Status * string) :=
  fun h =>
    let h' := {| this := this h; store := store h;
                 calls := calls h ++ [CallGet snapshot key] |} in
    match db_Get (store h) snapshot key with
    | Found v => ((OK, v), h')
    | NoValue f => ((Err f, value), h')
    end.

(** [db->Write(options, batch)]. *)
Definition DB_Write (batch : WriteBatch) : method Status :=
  fun h =>
    let (s, d) := db_Write (store h) batch in
    (s, {| this := this h; store := d; calls := calls h ++ [CallWrite batch] |}).

(** *** [Transaction::Transaction(DB* db)]

    The object is built over the store [d] (ignored when [db] is null). *)
Definition Transaction_ctor (db : DBPtr) (d : DB) : heap :=
  let t0 : Txn := {| db_ := db; snapshot_ := None; state_ := ACTIVE;
                     read_set_ := ∅; write_buffer_ := ∅; write_batch_ := [] |} in
  match db with
  | null_db =>
      {| this := with_state_ t0 ABORTED; store := d; calls := [] |}
  | the_db =>
      let (snap, d') := db_GetSnapshot d in
      let t1 := with_snapshot_ t0 snap in
      {| this := match snap with
                 | None => with_state_ t1 ABORTED
                 | Some _ => t1
                 end;
         store := d'; calls := [CallGetSnapshot] |}
  end.

(** *** [Transaction::CheckActive] *)
Definition CheckActive (t : Txn) : Status :=
  if decide (state_ t = ABORTED) then
    InvalidArgument "Transaction has been aborted"
  else if decide (state_ t = COMMITTED) then
    InvalidArgument "Transaction has been committed"
  else match db_ t with
       | null_db => InvalidArgument "Database is null"
       | the_db =>
           match snapshot_ t with
           | None => InvalidArgument "Snapshot is null"
           | Some _ => OK
           end
       end.

Definition conflict_message : string :=
  "Read-write conflict: key modified by another transaction".

(** *** [ValidateSnapshotIsolation]

    [value] is the out-parameter: its content on entry is an argument, its
    content on exit is returned with the status.  The store argument of the
    source is the one store of the heap. *)
Definition ValidateSnapshotIsolation (snapshot : option Snapshot)
    (key : string) (value : string) : method (Status * string) :=
  '(snap_status, value_at_snapshot) <- DB_Get snapshot key EmptyString ;;
  '(current_status, value) <- DB_Get None key value ;;
  let existed_at_snapshot := ok snap_status in
  let exists_now := ok current_status in
  if negb (eqb existed_at_snapshot exists_now) then
    ret (Corruption conflict_message key, value)
  else if existed_at_snapshot && exists_now
          && bool_decide (value_at_snapshot ≠ value) then
    ret (Corruption conflict_message key, value)
  else
    ret (OK, value).

(** *** [Transaction::Abort] *)
Definition Abort : method Status :=
  t <- get_this ;;
  if decide (state_ t = COMMITTED) then
    ret (InvalidArgument "Cannot rollback: transaction already committed")
  else if decide (state_ t = ABORTED) then
    ret OK
  else
    set_state_ ABORTED ;;
    set_write_buffer_ ∅ ;;
    set_write_batch_ [] ;;
    ret OK.

(** *** [Transaction::Get]

    The [ReadOptions] argument is not used by the source. *)
Definition Get (key : string) (value : string) : method (Status * string) :=
  t <- get_this ;;
  let s := CheckActive t in
  if negb (ok s) then ret (s, value)
  else
    match write_buffer_ t !! key with
    | Some {| value := it_value; is_tombstone := it_is_tombstone |} =>
        if it_is_tombstone then
          ret (NotFound "Key deleted in transaction", value)
        else
          ret (OK, it_value)
    | None =>
        '(s, value) <- ValidateSnapshotIsolation (snapshot_ t) key value ;;
        (if negb (ok s) then Abort else ret OK) ;;
        t <- get_this ;;
        set_read_set_ ({[key]} ∪ read_set_ t) ;;
        ret (s, value)
    end.

(** *** [Transaction::Put] *)
Definition Put (key value : string) : method Status :=
  t <- get_this ;;
  let s := CheckActive t in
  if negb (ok s) then ret s
  else
    set_write_buffer_ (<[key := BufferEntry_of value]> (write_buffer_ t)) ;;
    t <- get_this ;;
    set_write_batch_ (write_batch_ t ++ [BatchPut key value]) ;;
    ret OK.

(** *** [Transaction::Delete] *)
Definition Delete (key : string) : method Status :=
  t <- get_this ;;
  let s := CheckActive t in
  if negb (ok s) then ret s
  else
    set_write_buffer_ (<[key := Tombstone]> (write_buffer_ t)) ;;
    t <- get_this ;;
    set_write_batch_ (write_batch_ t ++ [BatchDelete key]) ;;
    ret OK.

(** *** [Transaction::Commit]

    The two validation loops: each key is validated with a fresh, empty
    out-parameter, and the first status that is not OK is returned.  The
    containers are unordered in the source; the order taken here is that
    of [elements] and [map_to_list], and no result below depends on it.
    The process-wide commit mutex has no effect on a single thread of
    calls and is not modelled. *)
Fixpoint validate_keys (snapshot : option Snapshot) (keys : list string)
  : method Status :=
  match keys with
  | [] => ret OK
  | key :: rest =>
      '(s, _) <- ValidateSnapshotIsolation snapshot key EmptyString ;;
      if negb (ok s) then ret s else validate_keys snapshot rest
  end.

Definition Commit : method Status :=
  t <- get_this ;;
  let s := CheckActive t in
  if negb (ok s) then ret s
  else if decide (write_buffer_ t = ∅) then
    set_state_ COMMITTED ;;
    ret OK
  else
    s <- validate_keys (snapshot_ t) (elements (read_set_ t)) ;;
    if negb (ok s) then ret s
    else
      s <- validate_keys (snapshot_ t) (map_to_list (write_buffer_ t)).*1 ;;
      if negb (ok s) then ret s
      else
        s <- DB_Write (write_batch_ t) ;;
        (if ok s then
           set_state_ COMMITTED ;;
           set_write_buffer_ ∅ ;;
           set_write_batch_ []
         else
           Abort ;; ret tt) ;;
        ret s.

(** *** Sequences of calls

    A client calls the member functions one after another; between two
    calls other clients may change the committed contents of the store. *)
Inductive Op :=
| OpGet (key value : string)
| OpPut (key value : string)
| OpDelete (key : string)
| OpCommit
| OpAbort.

Inductive Event :=
| Call (o : Op)
| External (d : DB).

Definition run_op (o : Op) : method Status :=
  match o with
  | OpGet key value => '(s, _) <- Get key value ;; ret s
  | OpPut key value => Put key value
  | OpDelete key => Delete key
  | OpCommit => Commit
  | OpAbort => Abort
  end.

Definition step (h : heap) (e : Event) : heap :=
  match e with
  | Call o => (run_op o h).2
  | External d => {| this := this h; store := d; calls := calls h |}
  end.

Definition run (es : list Event) (h : heap) : heap := foldl step h es.

(** Buffered mutations only. *)
Inductive Mutation :=
| MPut (key value : string)
| MDelete (key : string).

Definition mutation_key (m : Mutation) : string :=
  match m with MPut k _ => k | MDelete k => k end.

Definition mutate (h : heap) (m : Mutation) : heap :=
  match m with
  | MPut k v => (Put k v h).2
  | MDelete k => (Delete k h).2
  end.

(** The last mutation of [k] in a sequence, if any. *)
Fixpoint last_mutation (k : string) (ms : list Mutation) : option Mutation :=
  match ms with
  | [] => None
  | m :: rest =>
      match last_mutation k rest with
      | Some m' => Some m'
      | None => if decide (mutation_key m = k) then Some m else None
      end
  end.

(** *** Vocabulary of the specification *)

(** Replaying a write batch over a buffer: a Put leaves a value entry, a
    Delete leaves a tombstone entry. *)
Definition replay_op (b : gmap string BufferEntry) (o : WriteOp)
  : gmap string BufferEntry :=
  match o with
  | BatchPut k v => <[k := BufferEntry_of v]> b
  | BatchDelete k => <[k := Tombstone]> b
  end.

Definition replay (batch : WriteBatch) : gmap string BufferEntry :=
  foldl replay_op ∅ batch.

(** One step either leaves buffer and batch alone, or pairs one buffer
    assignment with one append to the batch, or clears both. *)
Definition lockstep (t t' : Txn) : Prop :=
  (write_buffer_ t' = write_buffer_ t ∧ write_batch_ t' = write_batch_ t)
  ∨ (∃ o, write_buffer_ t' = replay_op (write_buffer_ t) o
          ∧ write_batch_ t' = write_batch_ t ++ [o])
  ∨ (write_buffer_ t' = ∅ ∧ write_batch_ t' = []).

(** A call that is a read of the store. *)
Definition is_read (c : StoreCall Snapshot) : Prop :=
  match c with CallGet _ _ => True | _ => False end.

(** The buffer entry a mutation leaves under its key. *)
Definition mutation_entry (m : Mutation) : BufferEntry :=
  match m with MPut _ v => BufferEntry_of v | MDelete _ => Tombstone end.

(** The transaction is ABORTED or COMMITTED, or lacks a store or snapshot
    handle. *)
Definition inactive (t : Txn) : Prop :=
  state_ t = ABORTED ∨ state_ t = COMMITTED
  ∨ db_ t = null_db ∨ snapshot_ t = None.

(** The key exists in a view when reading it there succeeds. *)
Definition exists_in (r : GetResult) : bool :=
  match r with Found _ => true | NoValue _ => false end.

(** What an out-parameter holds after a read with outcome [r]. *)
Definition out_param (r : GetResult) (value : string) : string :=
  match r with Found v => v | NoValue _ => value end.

(** The key's existence differs between the snapshot view and the current
    view, or it exists in both with differing content. *)
Definition differs (d : DB) (snapshot : option Snapshot) (key : string) : Prop :=
  exists_in (db_Get d snapshot key) ≠ exists_in (db_Get d None key)
  ∨ ∃ v1 v2, db_Get d snapshot key = Found v1
             ∧ db_Get d None key = Found v2 ∧ v1 ≠ v2.

(** The same as a function of the two views. *)
Definition verdict (d : DB) (snapshot : option Snapshot) (key : string) : bool :=
  match db_Get d snapshot key, db_Get d None key with
  | Found a, Found b => bool_decide (a ≠ b)
  | NoValue _, NoValue _ => false
  | _, _ => true
  end.

(** The transaction after [Abort] took effect, and after a successful
    commit. *)
Definition aborted (t : Txn) : Txn :=
  {| db_ := db_ t; snapshot_ := snapshot_ t; state_ := ABORTED;
     read_set_ := read_set_ t; write_buffer_ := ∅; write_batch_ := [] |}.

Definition committed (t : Txn) : Txn :=
  {| db_ := db_ t; snapshot_ := snapshot_ t; state_ := COMMITTED;
     read_set_ := read_set_ t; write_buffer_ := ∅; write_batch_ := [] |}.

(** The keys commit re-validates, in the order it takes them: the read
    set, then the write buffer. *)
Definition commit_keys (t : Txn) : list string :=
  elements (read_set_ t) ++ (map_to_list (write_buffer_ t)).*1.

(** The keys a validation loop gets to: all up to the first conflict. *)
Fixpoint checked (d : DB) (snapshot : option Snapshot) (keys : list string)
  : list string :=
  match keys with
  | [] => []
  | k :: rest => k :: (if verdict d snapshot k then [] else checked d snapshot rest)
  end.

(** The calls one validation makes, and a heap with more calls recorded. *)
Definition validation_calls (snapshot : option Snapshot) (key : string)
  : list (StoreCall Snapshot) :=
  [CallGet snapshot key; CallGet None key].

Definition with_calls (h : heap) (cs : list (StoreCall Snapshot)) : heap :=
  {| this := this h; store := store h; calls := calls h ++ cs |}.

Definition with_this (h : heap) (t : Txn) : heap :=
  {| this := t; store := store h; calls := calls h |}.

End Methods.

(* ===================================================================== *)
(** ** Concrete runs on the in-memory store *)
(* ===================================================================== *)

Module Examples.

Abbreviation mem_heap := (Heap MemDB.t (gmap string string)).

Definition store_empty : MemDB.t := MemDB.of_list [].
Definition store_a1 : MemDB.t := MemDB.of_list [("a", "1")].
Definition store_a2 : MemDB.t := MemDB.of_list [("a", "2")].
Definition store_no_snapshots : MemDB.t :=
  {| MemDB.contents := ∅; MemDB.snapshots_available := false;
     MemDB.writes_succeed := true |}.

(** A transaction begun on the empty store. *)
Definition begun_on_empty : mem_heap := Transaction_ctor the_db store_empty.

(** A transaction begun while [a] holds [1]. *)
Definition begun : mem_heap := Transaction_ctor the_db store_a1.

(** ... after which another client overwrote [a]. *)
Definition overwritten : mem_heap := step begun (External store_a2).

(** A transaction that read [a], which was then overwritten by another
    client. *)
Definition read_then_overwritten : mem_heap :=
  run [Call (OpGet "a" EmptyString); External store_a2] begun.

(** A transaction that buffered a write of [a], which was then overwritten
    by another client. *)
Definition wrote_then_overwritten : mem_heap :=
  run [Call (OpPut "a" "3"); External store_a2] begun.

(** A transaction that committed a write. *)
Definition finished : mem_heap :=
  run [Call (OpPut "b" "2"); Call OpCommit] begun.

(** A transaction that was aborted with a write in its buffer. *)
Definition given_up : mem_heap :=
  run [Call (OpPut "b" "2"); Call OpAbort] begun.

(** Construction failures. *)
Definition without_store : mem_heap := Transaction_ctor null_db store_a1.
Definition without_snapshot : mem_heap :=
  Transaction_ctor the_db store_no_snapshots.

End Examples.

(* ===================================================================== *)
(** ** Destruction, and the transaction as a state machine *)
(* ===================================================================== *)

(** Modelled from the spec: [DB::ReleaseSnapshot], the one further store
    operation the class uses, in its destructor. *)
Class SnapshotRelease (DB Snapshot : Type) := {
  db_ReleaseSnapshot : DB → Snapshot → DB
}.

(** A handle of the in-memory store holds its own frozen contents: releasing
    it leaves the store as it is. *)
#[global] Instance mem_release : SnapshotRelease MemDB.t (gmap string string) := {
  db_ReleaseSnapshot d _ := d
}.

Section Lifecycle.
Context {DB Snapshot : Type} `{!Store DB Snapshot}.

(** *** [Transaction::~Transaction]

    Returns the store as the destructor leaves it and the handles it passed
    to [ReleaseSnapshot]. *)
Definition Transaction_dtor `{!SnapshotRelease DB Snapshot}
    (h : Heap DB Snapshot) : DB * list Snapshot :=
  match snapshot_ (this h), db_ (this h) with
  | Some snapshot, the_db => (db_ReleaseSnapshot (store h) snapshot, [snapshot])
  | _, _ => (store h, [])
  end.

(** *** [Transaction::state] *)
Definition state (t : Transaction Snapshot) : TransactionState := state_ t.

(** The effect of one call on the data members, whichever call it is. *)
Inductive transition (t : Transaction Snapshot) : Transaction Snapshot → Prop :=
| tr_none :
    transition t t
| tr_read key :
    CheckActive t = OK → write_buffer_ t !! key = None →
    transition t (with_read_set_ t ({[key]} ∪ read_set_ t))
| tr_read_conflict key :
    CheckActive t = OK → write_buffer_ t !! key = None →
    transition t (with_read_set_ (aborted t) ({[key]} ∪ read_set_ t))
| tr_write o :
    CheckActive t = OK →
    transition t
      {| db_ := db_ t; snapshot_ := snapshot_ t; state_ := state_ t;
         read_set_ := read_set_ t;
         write_buffer_ := replay_op (write_buffer_ t) o;
         write_batch_ := write_batch_ t ++ [o] |}
| tr_commit_read_only :
    CheckActive t = OK → write_buffer_ t = ∅ →
    transition t (with_state_ t COMMITTED)
| tr_commit :
    CheckActive t = OK → write_buffer_ t ≠ ∅ →
    transition t (committed t)
| tr_abort :
    state_ t = ACTIVE →
    transition t (aborted t).

(** The calls one validation of [key] against [snapshot] makes. *)
Definition is_validation_read (snapshot : option Snapshot)
    (c : StoreCall Snapshot) : Prop :=
  ∃ key, c = CallGet snapshot key ∨ c = CallGet None key.

(** The batches written to the store, in order. *)
Fixpoint writes_of (cs : list (StoreCall Snapshot)) : list WriteBatch :=
  match cs with
  | [] => []
  | CallWrite b :: rest => b :: writes_of rest
  | _ :: rest => writes_of rest
  end.

(** Re-validation reports no conflict for any key of the read set or of the
    write buffer. *)
Definition validates (h : Heap DB Snapshot) : Prop :=
  ∀ key, key ∈ read_set_ (this h) ∨ is_Some (write_buffer_ (this h) !! key) →
         ¬ IsConflict
             (ValidateSnapshotIsolation (snapshot_ (this h)) key EmptyString h).1.1.

(** What holds of the data members from construction on. *)
Definition well_formed (t : Transaction Snapshot) : Prop :=
  (state_ t = ACTIVE → CheckActive t = OK)
  ∧ (state_ t ≠ ACTIVE → write_buffer_ t = ∅ ∧ write_batch_ t = [])
  ∧ replay (write_batch_ t) = write_buffer_ t.

(** What a committed buffer entry reads as. *)
Definition entry_result (e : BufferEntry) : option string :=
  if is_tombstone e then None else Some (value e).

End Lifecycle.

(** Further runs on the in-memory store. *)
Module Runs.




(** Calls made on a transaction that has committed. *)
Definition after_commit : list (@Event MemDB.t) :=
  [Call (OpPut "a" "9"); Call (OpDelete "b"); Call OpAbort; Call OpCommit;
   Call (OpGet "a" EmptyString)].

(** The read of the latest state of [a]. *)
Definition read_latest_a : StoreCall (gmap string string) := CallGet None "a".

End Runs.

(* ===================================================================== *)
(** ** Properties *)
(* ===================================================================== *)

Section Properties.
Context {DB Snapshot : Type} `{!Store DB Snapshot}.

Implicit Types (h : Heap DB Snapshot) (t : Transaction Snapshot).
Implicit Types (key value : string) (snapshot : option Snapshot).

(** *** Status conditions *)

Lemma IsConflict_Corruption m k : IsConflict (Corruption m k).
Proof. reflexivity. Qed.

Lemma not_IsConflict_OK : ¬ IsConflict OK.
Proof. discriminate. Qed.

Lemma IsConflict_not_ok s : IsConflict s → ok s = false.
Proof. destruct s; [discriminate | reflexivity]. Qed.

Lemma CheckActive_cases t :
  CheckActive t = OK ∨ IsInvalidState (CheckActive t).
Proof.
  unfold CheckActive. repeat case_decide; try (by right).
  destruct (db_ t); [by right |]. destruct (snapshot_ t); [by left | by right].
Qed.

Lemma CheckActive_OK t :
  CheckActive t = OK ↔
  state_ t = ACTIVE ∧ db_ t = the_db ∧ is_Some (snapshot_ t).
Proof.
  unfold CheckActive. split.
  - repeat case_decide; try discriminate.
    destruct (db_ t); try discriminate.
    destruct (snapshot_ t) eqn:E; try discriminate.
    intros _. destruct (state_ t); try congruence. eauto.
  - intros (-> & -> & [s ->]). reflexivity.
Qed.

(** *** The validator in closed form *)

Lemma verdict_differs d snapshot key :
  verdict d snapshot key = true ↔ differs d snapshot key.
Proof.
  unfold verdict, differs.
  destruct (db_Get d snapshot key) as [a|fa], (db_Get d None key) as [b|fb];
    simpl; split; intros H; try done.
  - apply bool_decide_eq_true in H. right. eauto.
  - destruct H as [H | (v1 & v2 & [= <-] & [= <-] & Hne)]; [done |].
    by apply bool_decide_eq_true.
  - by left.
  - by left.
  - destruct H as [H | (v1 & v2 & ? & ? & ?)]; done.
Qed.

Lemma ValidateSnapshotIsolation_eq snapshot key value h :
  ValidateSnapshotIsolation snapshot key value h =
  ((if verdict (store h) snapshot key
    then Corruption conflict_message key else OK,
    out_param (db_Get (store h) None key) value),
   with_calls h (validation_calls snapshot key)).
Proof.
  unfold ValidateSnapshotIsolation, verdict, bind, DB_Get, with_calls,
    validation_calls, ret. simpl.
  destruct (db_Get (store h) snapshot key) as [a|fa]; simpl;
    destruct (db_Get (store h) None key) as [b|fb]; simpl;
    rewrite <- ?app_assoc; simpl; try reflexivity.
  destruct (bool_decide (a ≠ b)); reflexivity.
Qed.

Lemma ValidateSnapshotIsolation_verdict snapshot key out h :
  IsConflict (ValidateSnapshotIsolation snapshot key out h).1.1
  ↔ verdict (store h) snapshot key = true.
Proof.
  rewrite ValidateSnapshotIsolation_eq. simpl.
  destruct (verdict (store h) snapshot key); split; done.
Qed.

(** C1.  The validator reports a conflict exactly when the key's existence
    differs between the snapshot view and the current view, or the key
    exists in both with differing content; in every other case it returns OK
    and its out-parameter holds what the read of the current view stored
    there (the current value when the key exists). *)
Theorem ValidateSnapshotIsolation_conflict_iff snapshot key value h :
  let r := ValidateSnapshotIsolation snapshot key value h in
  (IsConflict r.1.1 ↔ differs (store h) snapshot key)
  ∧ (¬ differs (store h) snapshot key →
     r.1.1 = OK
     ∧ r.1.2 = out_param (db_Get (store h) None key) value
     ∧ ∀ v, db_Get (store h) None key = Found v → r.1.2 = v).
Proof.
  intros r. subst r. rewrite ValidateSnapshotIsolation_eq. simpl.
  rewrite <- verdict_differs.
  destruct (verdict (store h) snapshot key); split.
  - split; [done | intros _; apply IsConflict_Corruption].
  - intros []. reflexivity.
  - split; [intros []%not_IsConflict_OK | discriminate].
  - intros _. repeat split. intros v ->. reflexivity.
Qed.

(** *** The member functions in closed form *)

Lemma with_calls_nil h : with_calls h [] = h.
Proof. destruct h. unfold with_calls. simpl. by rewrite app_nil_r. Qed.

Lemma with_calls_app h cs1 cs2 :
  with_calls (with_calls h cs1) cs2 = with_calls h (cs1 ++ cs2).
Proof. unfold with_calls. simpl. by rewrite app_assoc. Qed.

Lemma with_this_id h : with_this h (this h) = h.
Proof. by destruct h. Qed.

Lemma Abort_eq h :
  Abort h =
  match state_ (this h) with
  | COMMITTED =>
      (InvalidArgument "Cannot rollback: transaction already committed", h)
  | ABORTED => (OK, h)
  | ACTIVE => (OK, with_this h (aborted (this h)))
  end.
Proof.
  unfold Abort, bind, get_this, ret.
  destruct (state_ (this h)) eqn:E; repeat case_decide; try done.
Qed.

Lemma Get_inactive key out h :
  CheckActive (this h) ≠ OK →
  Get key out h = ((CheckActive (this h), out), h).
Proof.
  intros H. unfold Get, bind, get_this, ret.
  destruct (CheckActive (this h)); done.
Qed.

Lemma Get_buffered key out h e :
  CheckActive (this h) = OK →
  write_buffer_ (this h) !! key = Some e →
  Get key out h =
  (if is_tombstone e then (NotFound "Key deleted in transaction", out)
   else (OK, value e), h).
Proof.
  intros H He. unfold Get, bind, get_this, ret. rewrite H, He. simpl.
  destruct e as [v []]; reflexivity.
Qed.

Lemma Get_from_store key out h :
  CheckActive (this h) = OK →
  write_buffer_ (this h) !! key = None →
  Get key out h =
  let c := verdict (store h) (snapshot_ (this h)) key in
  ((if c then Corruption conflict_message key else OK,
    out_param (db_Get (store h) None key) out),
   {| this := with_read_set_ (if c then aborted (this h) else this h)
                             ({[key]} ∪ read_set_ (this h));
      store := store h;
      calls := calls h ++ validation_calls (snapshot_ (this h)) key |}).
Proof.
  intros H He. unfold Get. unfold bind at 1. unfold get_this at 1.
  rewrite H, He. simpl. unfold bind at 1.
  rewrite ValidateSnapshotIsolation_eq.
  apply CheckActive_OK in H as (Hst & _ & _).
  destruct (verdict (store h) (snapshot_ (this h)) key); simpl.
  - unfold bind at 1. rewrite Abort_eq. simpl. rewrite Hst. reflexivity.
  - reflexivity.
Qed.

Lemma Put_inactive key v h :
  CheckActive (this h) ≠ OK → Put key v h = (CheckActive (this h), h).
Proof.
  intros H. unfold Put, bind, get_this, ret.
  destruct (CheckActive (this h)); done.
Qed.

Lemma Put_active key v h :
  CheckActive (this h) = OK →
  Put key v h =
  (OK, with_this h
         {| db_ := db_ (this h); snapshot_ := snapshot_ (this h);
            state_ := state_ (this h); read_set_ := read_set_ (this h);
            write_buffer_ := <[key := BufferEntry_of v]> (write_buffer_ (this h));
            write_batch_ := write_batch_ (this h) ++ [BatchPut key v] |}).
Proof. intros H. unfold Put, bind, get_this, ret. by rewrite H. Qed.

Lemma Delete_inactive key h :
  CheckActive (this h) ≠ OK → Delete key h = (CheckActive (this h), h).
Proof.
  intros H. unfold Delete, bind, get_this, ret.
  destruct (CheckActive (this h)); done.
Qed.

Lemma Delete_active key h :
  CheckActive (this h) = OK →
  Delete key h =
  (OK, with_this h
         {| db_ := db_ (this h); snapshot_ := snapshot_ (this h);
            state_ := state_ (this h); read_set_ := read_set_ (this h);
            write_buffer_ := <[key := Tombstone]> (write_buffer_ (this h));
            write_batch_ := write_batch_ (this h) ++ [BatchDelete key] |}).
Proof. intros H. unfold Delete, bind, get_this, ret. by rewrite H. Qed.

(** A validation loop stops at the first key whose verdict is a conflict,
    and only reads. *)
Lemma validate_keys_eq snapshot keys h :
  validate_keys snapshot keys h =
  (match find (verdict (store h) snapshot) keys with
   | Some k => Corruption conflict_message k
   | None => OK
   end,
   with_calls h (checked (store h) snapshot keys ≫= validation_calls snapshot)).
Proof.
  revert h. induction keys as [|k keys IH]; intros h; simpl.
  - unfold ret. by rewrite with_calls_nil.
  - unfold bind at 1. rewrite ValidateSnapshotIsolation_eq.
    destruct (verdict (store h) snapshot k) eqn:Ev; simpl.
    + reflexivity.
    + rewrite IH. simpl. by rewrite with_calls_app.
Qed.

Lemma validate_keys_app snapshot keys1 keys2 h :
  (s <- validate_keys snapshot keys1 ;;
   if negb (ok s) then ret s else validate_keys snapshot keys2)%method h
  = validate_keys snapshot (keys1 ++ keys2) h.
Proof.
  revert h. induction keys1 as [|k keys1 IH]; intros h; simpl.
  - reflexivity.
  - unfold bind. fold (@bind DB Snapshot).
    destruct (ValidateSnapshotIsolation snapshot k EmptyString h)
      as [[s v] h'].
    destruct s; simpl; [apply IH | reflexivity].
Qed.

Lemma Commit_inactive h :
  CheckActive (this h) ≠ OK → Commit h = (CheckActive (this h), h).
Proof.
  intros H. unfold Commit, bind, get_this, ret.
  destruct (CheckActive (this h)); done.
Qed.

Lemma Commit_read_only h :
  CheckActive (this h) = OK →
  write_buffer_ (this h) = ∅ →
  Commit h = (OK, with_this h (with_state_ (this h) COMMITTED)).
Proof.
  intros H He. unfold Commit, bind, get_this, ret. rewrite H. simpl.
  by rewrite decide_True.
Qed.

Lemma Commit_writes h :
  CheckActive (this h) = OK →
  write_buffer_ (this h) ≠ ∅ →
  Commit h =
  let t := this h in
  let reads :=
    checked (store h) (snapshot_ t) (commit_keys t)
      ≫= validation_calls (snapshot_ t) in
  match find (verdict (store h) (snapshot_ t)) (commit_keys t) with
  | Some k => (Corruption conflict_message k, with_calls h reads)
  | None =>
      let (s, d) := db_Write (store h) (write_batch_ t) in
      (s, {| this := if ok s then committed t else aborted t;
             store := d;
             calls := calls h ++ reads ++ [CallWrite (write_batch_ t)] |})
  end.
Proof.
  intros H He. unfold Commit. unfold bind at 1. unfold get_this at 1.
  rewrite H. simpl. rewrite decide_False by done.
  pose proof (validate_keys_app (snapshot_ (this h))
                (elements (read_set_ (this h)))
                (map_to_list (write_buffer_ (this h))).*1 h) as Happ.
  fold (commit_keys (this h)) in Happ. rewrite validate_keys_eq in Happ.
  unfold bind at 1 in Happ. unfold bind at 1.
  destruct (validate_keys (snapshot_ (this h))
              (elements (read_set_ (this h))) h) as [s1 h1].
  destruct (ok s1) eqn:E1; simpl in *.
  - unfold bind at 1. rewrite Happ.
    destruct (find _ _) as [k|]; simpl; [reflexivity |].
    unfold bind at 1. unfold DB_Write. simpl.
    destruct (db_Write (store h) (write_batch_ (this h))) as [s d].
    apply CheckActive_OK in H as (Hst & _ & _).
    destruct s as [|f]; simpl.
    + unfold bind, set_state_, set_write_buffer_, set_write_batch_,
        get_this, set_this, ret. simpl. by rewrite <- app_assoc.
    + unfold bind at 1. unfold bind at 1. rewrite Abort_eq. simpl.
      rewrite Hst. unfold ret, with_this. simpl. by rewrite <- app_assoc.
  - unfold ret in *. destruct (find _ _); [exact Happ |].
    injection Happ as -> _. discriminate E1.
Qed.

(** What a call to [Commit] can do to the object. *)
Lemma Commit_this h :
  let t := this h in
  let t' := this (Commit h).2 in
  t' = t
  ∨ (write_buffer_ t = ∅ ∧ t' = with_state_ t COMMITTED)
  ∨ t' = committed t
  ∨ (state_ t = ACTIVE ∧ t' = aborted t).
Proof.
  simpl. destruct (CheckActive_cases (this h)) as [Hact | Hin].
  - destruct (decide (write_buffer_ (this h) = ∅)) as [He | He].
    + rewrite Commit_read_only by done. right. left. done.
    + rewrite Commit_writes by done. simpl.
      destruct (find _ _); simpl; [by left |].
      destruct (db_Write _ _) as [s d]. simpl.
      apply CheckActive_OK in Hact as (Hst & _ & _).
      destruct s; simpl; [right; right; by left | by repeat right].
  - rewrite Commit_inactive; [by left |].
    intros E. rewrite E in Hin. discriminate.
Qed.

(** *** The read set *)

Lemma run_op_read_set o h :
  read_set_ (this (run_op o h).2) =
  match o with
  | OpGet key _ =>
      if decide (CheckActive (this h) = OK
                 ∧ write_buffer_ (this h) !! key = None)
      then {[key]} ∪ read_set_ (this h)
      else read_set_ (this h)
  | _ => read_set_ (this h)
  end.
Proof.
  destruct o as [key out|key v|key| |]; simpl.
  - unfold bind.
    destruct (CheckActive_cases (this h)) as [Hact | Hin].
    + destruct (write_buffer_ (this h) !! key) as [e|] eqn:He.
      * rewrite (Get_buffered _ _ _ e) by done.
        rewrite decide_False by (intros [_ ?]; done).
        by destruct (is_tombstone e).
      * rewrite Get_from_store by done. simpl.
        rewrite decide_True by done.
        by destruct (verdict (store h) (snapshot_ (this h)) key).
    + assert (CheckActive (this h) ≠ OK) as Hne
        by (intros E; rewrite E in Hin; discriminate).
      rewrite Get_inactive by done.
      by rewrite decide_False by (intros [? _]; done).
  - destruct (CheckActive_cases (this h)) as [Hact | Hin].
    + by rewrite Put_active.
    + rewrite Put_inactive; [done |].
      intros E; rewrite E in Hin; discriminate.
  - destruct (CheckActive_cases (this h)) as [Hact | Hin].
    + by rewrite Delete_active.
    + rewrite Delete_inactive; [done |].
      intros E; rewrite E in Hin; discriminate.
  - destruct (Commit_this h) as [-> | [[_ ->] | [-> | [_ ->]]]]; done.
  - rewrite Abort_eq. by destruct (state_ (this h)).
Qed.

Lemma step_read_set_subseteq h e :
  read_set_ (this h) ⊆ read_set_ (this (step h e)).
Proof.
  destruct e as [o | d]; simpl; [| done].
  rewrite run_op_read_set. destruct o; try done.
  destruct (decide _); [apply union_subseteq_r | done].
Qed.

Lemma run_read_set_subseteq es h :
  read_set_ (this h) ⊆ read_set_ (this (run es h)).
Proof.
  revert h. induction es as [|e es IH]; intros h; simpl; [done |].
  etrans; [apply (step_read_set_subseteq h e) | apply IH].
Qed.

(** C3, as the code has it.  Over every sequence of calls and external
    store changes the read set only grows; a key enters it only through a
    Get that found the transaction ACTIVE and no buffer entry for the key;
    and on a Get whose inline validation reports a conflict the conflict is
    surfaced, the transaction transitions to ABORTED, and the key is added
    to the read set all the same. *)
Theorem read_set_grows_through_active_Get :
  (∀ es h, read_set_ (this h) ⊆ read_set_ (this (run es h)))
  ∧ (∀ e h k,
       k ∉ read_set_ (this h) → k ∈ read_set_ (this (step h e)) →
       state_ (this h) = ACTIVE
       ∧ write_buffer_ (this h) !! k = None
       ∧ ∃ out, e = Call (OpGet k out))
  ∧ (∀ h key out,
       CheckActive (this h) = OK →
       write_buffer_ (this h) !! key = None →
       IsConflict
         (ValidateSnapshotIsolation (snapshot_ (this h)) key out h).1.1 →
       let r := Get key out h in
       IsConflict r.1.1
       ∧ state_ (this r.2) = ABORTED
       ∧ read_set_ (this r.2) = {[key]} ∪ read_set_ (this h)).
Proof.
  split; [apply run_read_set_subseteq | split].
  - intros [o | d] h k Hnot Hin; simpl in Hin; [| done].
    rewrite run_op_read_set in Hin. destruct o; try done.
    destruct (decide _) as [[Hact Hbuf] |]; [| done].
    apply elem_of_union in Hin as [->%elem_of_singleton | ?]; [| done].
    apply CheckActive_OK in Hact as (? & _ & _). eauto.
  - intros h key out Hact Hbuf Hd%ValidateSnapshotIsolation_verdict. simpl.
    rewrite Get_from_store by done. simpl. rewrite Hd. simpl.
    split; [apply IsConflict_Corruption | done].
Qed.

(** *** Write buffer and write batch *)

Lemma step_lockstep h e : lockstep (this h) (this (step h e)).
Proof.
  unfold lockstep.
  destruct e as [[key out|key v|key| |] | d]; simpl; [| | | | | by left].
  - unfold bind. destruct (CheckActive_cases (this h)) as [Hact | Hin].
    + destruct (write_buffer_ (this h) !! key) as [e|] eqn:He.
      * rewrite (Get_buffered _ _ _ e) by done.
        left. by destruct (is_tombstone e).
      * rewrite Get_from_store by done. simpl.
        destruct (verdict (store h) (snapshot_ (this h)) key); simpl;
          [by repeat right | by left].
    + rewrite Get_inactive; [by left |].
      intros E; rewrite E in Hin; discriminate.
  - destruct (CheckActive_cases (this h)) as [Hact | Hin].
    + rewrite Put_active by done. right. left. by exists (BatchPut key v).
    + rewrite Put_inactive; [by left |].
      intros E; rewrite E in Hin; discriminate.
  - destruct (CheckActive_cases (this h)) as [Hact | Hin].
    + rewrite Delete_active by done. right. left. by exists (BatchDelete key).
    + rewrite Delete_inactive; [by left |].
      intros E; rewrite E in Hin; discriminate.
  - destruct (Commit_this h) as [-> | [[He ->] | [-> | [_ ->]]]]; simpl;
      [by left | by left | by repeat right | by repeat right].
  - rewrite Abort_eq.
    destruct (state_ (this h)); simpl; [by repeat right | by left | by left].
Qed.

Lemma replay_snoc batch o : replay (batch ++ [o]) = replay_op (replay batch) o.
Proof. unfold replay. by rewrite foldl_app. Qed.

Lemma lockstep_replay t t' :
  lockstep t t' →
  replay (write_batch_ t) = write_buffer_ t →
  replay (write_batch_ t') = write_buffer_ t'.
Proof.
  intros [[-> ->] | [(o & -> & ->) | [-> ->]]] Hinv.
  - done.
  - by rewrite replay_snoc, Hinv.
  - done.
Qed.

Lemma run_replay es h :
  replay (write_batch_ (this h)) = write_buffer_ (this h) →
  replay (write_batch_ (this (run es h))) = write_buffer_ (this (run es h)).
Proof.
  revert h. induction es as [|e es IH]; intros h Hinv; simpl; [done |].
  apply IH. by eapply lockstep_replay; [apply step_lockstep |].
Qed.

Lemma Transaction_ctor_empty db d :
  write_buffer_ (this (Transaction_ctor db d)) = ∅
  ∧ write_batch_ (this (Transaction_ctor db d)) = []
  ∧ read_set_ (this (Transaction_ctor db d)) = ∅.
Proof.
  unfold Transaction_ctor. destruct db; simpl; [done |].
  destruct (db_GetSnapshot d) as [[snap|] d']; done.
Qed.

(** C7.  From construction on, over every sequence of calls and external
    store changes, replaying the write batch from the empty map gives
    exactly the write buffer (a Delete leaves a tombstone entry); and each
    single step either touches neither, or pairs one assignment to the
    buffer with exactly one append to the batch, or clears both. *)
Theorem write_buffer_write_batch_lockstep :
  (∀ db d es,
     let t := this (run es (Transaction_ctor db d)) in
     replay (write_batch_ t) = write_buffer_ t)
  ∧ (∀ h e, lockstep (this h) (this (step h e)))
  ∧ (∀ k v, replay [BatchPut k v; BatchDelete k] !! k = Some Tombstone).
Proof.
  split; [| split].
  - intros db d es. simpl. apply run_replay.
    destruct (Transaction_ctor_empty db d) as (-> & -> & _). done.
  - apply step_lockstep.
  - intros k v. unfold replay. simpl. apply lookup_insert_eq.
Qed.

(** *** Commit *)

Lemma elem_of_commit_keys t key :
  key ∈ commit_keys t ↔
  key ∈ read_set_ t ∨ is_Some (write_buffer_ t !! key).
Proof.
  unfold commit_keys. rewrite elem_of_app, elem_of_elements.
  apply or_iff_compat_l. rewrite list_elem_of_fmap. split.
  - intros ([k e] & -> & Hin). apply elem_of_map_to_list in Hin. eauto.
  - intros [e He]. exists (key, e). split; [done |].
    by apply elem_of_map_to_list.
Qed.

Lemma find_verdict_Some d snapshot keys key :
  key ∈ keys → verdict d snapshot key = true →
  ∃ k, find (verdict d snapshot) keys = Some k.
Proof.
  intros Hin Hv. destruct (find _ keys) as [k|] eqn:E; [eauto |].
  apply list_elem_of_In in Hin.
  pose proof (find_none _ _ E _ Hin) as Hf. congruence.
Qed.

Lemma validation_calls_are_reads d snapshot keys :
  Forall is_read (checked d snapshot keys ≫= validation_calls snapshot).
Proof.
  apply Forall_forall. intros c Hc.
  apply list_elem_of_bind in Hc as (k & Hc & _).
  unfold validation_calls in Hc.
  apply elem_of_cons in Hc as [-> | Hc]; [done |].
  apply list_elem_of_singleton in Hc as ->. done.
Qed.

Lemma Commit_conflict h key :
  CheckActive (this h) = OK →
  write_buffer_ (this h) ≠ ∅ →
  key ∈ commit_keys (this h) →
  verdict (store h) (snapshot_ (this h)) key = true →
  ∃ k cs, Commit h = (Corruption conflict_message k, with_calls h cs)
          ∧ Forall is_read cs.
Proof.
  intros Hact Hne Hin Hv.
  destruct (find_verdict_Some _ _ _ _ Hin Hv) as [k Hk].
  rewrite Commit_writes by done. simpl. rewrite Hk.
  eexists _, _. split; [done | apply validation_calls_are_reads].
Qed.

(** C4.  When an ACTIVE transaction with a non-empty write buffer commits
    and re-validation of some key of its read set or write buffer detects a
    conflict, Commit returns a conflict error; the transaction object is
    unchanged (state still ACTIVE, write buffer and write batch as they
    were), the store is unchanged, and only reads reached the store. *)
Theorem Commit_conflict_leaves_transaction_active h key :
  CheckActive (this h) = OK →
  write_buffer_ (this h) ≠ ∅ →
  key ∈ read_set_ (this h) ∨ is_Some (write_buffer_ (this h) !! key) →
  IsConflict
    (ValidateSnapshotIsolation (snapshot_ (this h)) key EmptyString h).1.1 →
  let r := Commit h in
  IsConflict r.1
  ∧ state_ (this r.2) = ACTIVE
  ∧ write_buffer_ (this r.2) = write_buffer_ (this h)
  ∧ write_batch_ (this r.2) = write_batch_ (this h)
  ∧ this r.2 = this h
  ∧ store r.2 = store h
  ∧ ∃ cs, calls r.2 = calls h ++ cs ∧ Forall is_read cs.
Proof.
  intros Hact Hne Hin%elem_of_commit_keys
    Hd%ValidateSnapshotIsolation_verdict. simpl.
  destruct (Commit_conflict h key) as (k & cs & -> & Hcs); try done.
  simpl. apply CheckActive_OK in Hact as (Hst & _ & _).
  repeat split; try done. eauto.
Qed.

(** C5.  When an ACTIVE transaction with an empty write buffer commits,
    Commit returns OK and the state becomes COMMITTED; nothing else
    changes and no call reaches the store, so no key of the read set is
    re-validated, whatever the store holds by then. *)
Theorem Commit_read_only_skips_validation h :
  CheckActive (this h) = OK →
  write_buffer_ (this h) = ∅ →
  let r := Commit h in
  r.1 = OK
  ∧ state_ (this r.2) = COMMITTED
  ∧ read_set_ (this r.2) = read_set_ (this h)
  ∧ store r.2 = store h
  ∧ calls r.2 = calls h.
Proof. intros Hact He. simpl. by rewrite Commit_read_only. Qed.

(** *** Reading one's own writes *)

Lemma mutate_active h m :
  CheckActive (this h) = OK →
  CheckActive (this (mutate h m)) = OK
  ∧ write_buffer_ (this (mutate h m))
    = <[mutation_key m := mutation_entry m]> (write_buffer_ (this h)).
Proof.
  intros Hact. destruct m as [k v | k]; simpl.
  - by rewrite Put_active.
  - by rewrite Delete_active.
Qed.

Lemma foldl_mutate_active h ms :
  CheckActive (this h) = OK → CheckActive (this (foldl mutate h ms)) = OK.
Proof.
  revert h. induction ms as [|m ms IH]; intros h Hact; simpl; [done |].
  apply IH. by apply mutate_active.
Qed.

Lemma foldl_mutate_lookup h ms k :
  CheckActive (this h) = OK →
  write_buffer_ (this (foldl mutate h ms)) !! k =
  match last_mutation k ms with
  | Some m => Some (mutation_entry m)
  | None => write_buffer_ (this h) !! k
  end.
Proof.
  revert h. induction ms as [|m ms IH]; intros h Hact; simpl; [done |].
  destruct (mutate_active h m Hact) as [Hact' Hbuf].
  rewrite IH by done. destruct (last_mutation k ms); [done |].
  rewrite Hbuf. destruct (decide (mutation_key m = k)) as [<- | Hne].
  - apply lookup_insert_eq.
  - by apply lookup_insert_ne.
Qed.

(** C6.  On an ACTIVE transaction, after any sequence of Put and Delete
    calls, Get of a key answers by the last mutation of that key in the
    sequence: the value of a Put, NotFound for a Delete, whatever the store
    holds; in particular after Put(k, v), after Delete(k), after Put then
    Delete, and after Delete then Put. *)
Theorem Get_reflects_latest_mutation h :
  CheckActive (this h) = OK →
  (∀ ms k out,
     let r := Get k out (foldl mutate h ms) in
     match last_mutation k ms with
     | Some (MPut _ v) => r.1 = (OK, v)
     | Some (MDelete _) => IsNotFound r.1.1 ∧ r.1.2 = out
     | None => True
     end)
  ∧ (∀ k v out, (Get k out (Put k v h).2).1 = (OK, v))
  ∧ (∀ k out, IsNotFound (Get k out (Delete k h).2).1.1)
  ∧ (∀ k out, IsNotFound (Get k out (Delete k (Put k "a" h).2).2).1.1)
  ∧ (∀ k out, (Get k out (Put k "a" (Delete k h).2).2).1 = (OK, "a")).
Proof.
  intros Hact.
  assert (∀ ms k out,
     let r := Get k out (foldl mutate h ms) in
     match last_mutation k ms with
     | Some (MPut _ v) => r.1 = (OK, v)
     | Some (MDelete _) => IsNotFound r.1.1 ∧ r.1.2 = out
     | None => True
     end) as Hgen.
  { intros ms k out. simpl.
    pose proof (foldl_mutate_active h ms Hact) as Hact'.
    pose proof (foldl_mutate_lookup h ms k Hact) as Hlook.
    destruct (last_mutation k ms) as [[k' v | k'] |]; [| | done].
    - by rewrite (Get_buffered _ _ _ _ Hact' Hlook).
    - by rewrite (Get_buffered _ _ _ _ Hact' Hlook). }
  split; [exact Hgen |].
  split; [| split; [| split]].
  - intros k v out. pose proof (Hgen [MPut k v] k out) as H.
    simpl in H. by rewrite decide_True in H.
  - intros k out. pose proof (Hgen [MDelete k] k out) as H.
    simpl in H. rewrite decide_True in H by done. apply H.
  - intros k out. pose proof (Hgen [MPut k "a"; MDelete k] k out) as H.
    simpl in H. rewrite decide_True in H by done. apply H.
  - intros k out. pose proof (Hgen [MDelete k; MPut k "a"] k out) as H.
    simpl in H. by rewrite decide_True in H.
Qed.

(** *** Abort and inactive transactions *)

(** C8.  Abort on an ABORTED transaction returns OK and changes nothing;
    on a COMMITTED transaction it fails with InvalidState (and changes
    nothing); on any other transaction it returns OK, clears the write
    buffer and the write batch and sets the state to ABORTED, leaving the
    other members, the store and the record of calls alone. *)
Theorem Abort_by_state h :
  let r := Abort h in
  match state_ (this h) with
  | ABORTED => r = (OK, h)
  | COMMITTED => IsInvalidState r.1 ∧ r.2 = h
  | ACTIVE =>
      r.1 = OK
      ∧ state_ (this r.2) = ABORTED
      ∧ write_buffer_ (this r.2) = ∅
      ∧ write_batch_ (this r.2) = []
      ∧ read_set_ (this r.2) = read_set_ (this h)
      ∧ db_ (this r.2) = db_ (this h)
      ∧ snapshot_ (this r.2) = snapshot_ (this h)
      ∧ store r.2 = store h
      ∧ calls r.2 = calls h
  end.
Proof. simpl. rewrite Abort_eq. by destruct (state_ (this h)). Qed.

Lemma inactive_CheckActive t :
  inactive t → IsInvalidState (CheckActive t) ∧ CheckActive t ≠ OK.
Proof.
  intros Hin. destruct (CheckActive_cases t) as [Hact | Hinv].
  - apply CheckActive_OK in Hact as (Hst & Hdb & [s Hs]).
    destruct Hin as [? | [? | [? | ?]]]; congruence.
  - split; [done |]. intros E. rewrite E in Hinv. discriminate.
Qed.

(** C9.  Construction is total: with a null store, or when snapshot
    acquisition returns null, the transaction comes out ABORTED (and with a
    null store the store is not called).  On a transaction that is ABORTED
    or COMMITTED or lacks a store or snapshot handle, Get, Put, Delete and
    Commit fail with InvalidState and leave the object, the store, the
    record of store calls and the out-parameter as they were. *)
Theorem inactive_transaction_rejects_calls :
  (∀ d, let h := Transaction_ctor null_db d in
        state_ (this h) = ABORTED ∧ store h = d ∧ calls h = [])
  ∧ (∀ d, (db_GetSnapshot d).1 = None →
          state_ (this (Transaction_ctor the_db d)) = ABORTED)
  ∧ (∀ h, inactive (this h) →
       (∀ key out, IsInvalidState (Get key out h).1.1
                   ∧ (Get key out h).1.2 = out ∧ (Get key out h).2 = h)
       ∧ (∀ key v, IsInvalidState (Put key v h).1 ∧ (Put key v h).2 = h)
       ∧ (∀ key, IsInvalidState (Delete key h).1 ∧ (Delete key h).2 = h)
       ∧ (IsInvalidState (Commit h).1 ∧ (Commit h).2 = h)).
Proof.
  split; [done | split].
  - intros d Hd. unfold Transaction_ctor.
    destruct (db_GetSnapshot d) as [snap d']. simpl in Hd. by subst.
  - intros h [Hinv Hne]%inactive_CheckActive. repeat split; intros.
    + by rewrite Get_inactive.
    + by rewrite Get_inactive.
    + by rewrite Get_inactive.
    + by rewrite Put_inactive.
    + by rewrite Put_inactive.
    + by rewrite Delete_inactive.
    + by rewrite Delete_inactive.
    + by rewrite Commit_inactive.
    + by rewrite Commit_inactive.
Qed.

(** C10.  On an ACTIVE transaction, Get of a key that has a write-buffer
    entry is answered from the entry and leaves the whole heap as it was:
    no call reaches the store (no read, no validation) and the read set is
    unchanged.  The key is among those the write-buffer pass of Commit
    validates, so a conflict on it surfaces at commit. *)
Theorem Get_buffered_key_skips_store h key e out :
  CheckActive (this h) = OK →
  write_buffer_ (this h) !! key = Some e →
  let r := Get key out h in
  r.2 = h
  ∧ calls r.2 = calls h
  ∧ read_set_ (this r.2) = read_set_ (this h)
  ∧ r.1 = (if is_tombstone e
           then (NotFound "Key deleted in transaction", out)
           else (OK, value e))
  ∧ key ∈ (map_to_list (write_buffer_ (this h))).*1
  ∧ (IsConflict
       (ValidateSnapshotIsolation (snapshot_ (this h)) key EmptyString h).1.1 →
     IsConflict (Commit h).1).
Proof.
  intros Hact He. simpl. rewrite (Get_buffered _ _ _ e) by done.
  repeat split.
  - apply list_elem_of_fmap. exists (key, e). split; [done |].
    by apply elem_of_map_to_list.
  - intros Hd%ValidateSnapshotIsolation_verdict.
    assert (write_buffer_ (this h) ≠ ∅) as Hne.
    { intros E. rewrite E, lookup_empty in He. discriminate. }
    destruct (Commit_conflict h key) as (k & cs & -> & _); try done.
    apply elem_of_commit_keys. right. eauto.
Qed.

End Properties.

(** C2, on the code.  A transaction begun on the empty store is ACTIVE and has
    an empty write buffer; the key is absent at its snapshot and absent now.
    Get returns OK (not NotFound), leaves the out-parameter as it was, and
    the transaction stays ACTIVE. *)
Theorem Get_absent_key_returns_OK :
  let h := Examples.begun_on_empty in
  let r := Get "k" "junk" h in
  CheckActive (this h) = OK
  ∧ write_buffer_ (this h) !! "k" = None
  ∧ db_Get (store h) (snapshot_ (this h)) "k"
    = NoValue {| code := kNotFound; msg := EmptyString; msg2 := EmptyString |}
  ∧ db_Get (store h) None "k"
    = NoValue {| code := kNotFound; msg := EmptyString; msg2 := EmptyString |}
  ∧ r.1 = (OK, "junk")
  ∧ ¬ IsNotFound r.1.1
  ∧ state_ (this r.2) = ACTIVE.
Proof. vm_compute. repeat split; discriminate. Qed.

(** C3, as stated, fails: a Get whose inline validation reports a conflict
    does add the key to the read set.  The transaction was begun while [a]
    held [1]; [a] was then overwritten by another client. *)
Lemma Get_conflict_still_inserts_key :
  ¬ (∀ (h : Examples.mem_heap) key out,
       CheckActive (this h) = OK →
       write_buffer_ (this h) !! key = None →
       IsConflict (Get key out h).1.1 →
       key ∉ read_set_ (this (Get key out h).2)).
Proof.
  intros H.
  apply (H Examples.overwritten "a" EmptyString); [done | done | done |].
  vm_compute. set_solver.
Qed.

(* ===================================================================== *)
(** ** The properties on concrete runs *)
(* ===================================================================== *)

(** The validator on a key that is unchanged since the snapshot. *)
Lemma ValidateSnapshotIsolation_conflict_iff_witness :
  let h := Examples.begun in
  let r := ValidateSnapshotIsolation (snapshot_ (this h)) "a" "junk" h in
  ¬ differs (store h) (snapshot_ (this h)) "a"
  ∧ r.1.1 = OK ∧ r.1.2 = "1".
Proof.
  assert (¬ differs (store Examples.begun)
            (snapshot_ (this Examples.begun)) "a") as Hsame.
  { intros [H | (v1 & v2 & H1 & H2 & Hne)].
    - vm_compute in H. done.
    - vm_compute in H1, H2. congruence. }
  split; [exact Hsame |].
  destruct (ValidateSnapshotIsolation_conflict_iff
              (snapshot_ (this Examples.begun)) "a" "junk" Examples.begun)
    as [_ Hok].
  destruct (Hok Hsame) as (Hs & _ & Hv).
  split; [exact Hs | apply Hv; reflexivity].
Defined.

(** An inline conflict: [a] was overwritten after the transaction began. *)
Lemma read_set_grows_through_active_Get_witness :
  let h := Examples.overwritten in
  let r := Get "a" EmptyString h in
  IsConflict r.1.1
  ∧ state_ (this r.2) = ABORTED
  ∧ read_set_ (this r.2) = {["a"]} ∪ read_set_ (this h).
Proof.
  destruct (@read_set_grows_through_active_Get MemDB.t _ _) as (_ & _ & H).
  apply (H Examples.overwritten "a" EmptyString); reflexivity.
Defined.

(** A commit-time conflict on a buffered write. *)
Lemma Commit_conflict_leaves_transaction_active_witness :
  let h := Examples.wrote_then_overwritten in
  let r := Commit h in
  CheckActive (this h) = OK
  ∧ IsConflict r.1
  ∧ state_ (this r.2) = ACTIVE
  ∧ this r.2 = this h
  ∧ store r.2 = store h.
Proof.
  split; [reflexivity |].
  destruct (Commit_conflict_leaves_transaction_active
              Examples.wrote_then_overwritten "a")
    as (Hc & Hst & _ & _ & Ht & Hs & _).
  - reflexivity.
  - intros E. apply (f_equal (lookup "a")) in E. vm_compute in E. discriminate.
  - right. vm_compute. eauto.
  - reflexivity.
  - split; [exact Hc |]. split; [exact Hst |]. split; [exact Ht | exact Hs].
Defined.

(** A read-only commit over a read key that was overwritten since. *)
Lemma Commit_read_only_skips_validation_witness :
  let h := Examples.read_then_overwritten in
  let r := Commit h in
  "a" ∈ read_set_ (this h)
  ∧ differs (store h) (snapshot_ (this h)) "a"
  ∧ r.1 = OK
  ∧ state_ (this r.2) = COMMITTED
  ∧ calls r.2 = calls h.
Proof.
  split; [vm_compute; set_solver |].
  split; [right; exists "1", "2"; repeat split; discriminate |].
  destruct (Commit_read_only_skips_validation Examples.read_then_overwritten)
    as (Hs & Hst & _ & _ & Hc); [reflexivity | reflexivity |].
  split; [exact Hs |]. split; [exact Hst | exact Hc].
Defined.

(** Reads of buffered mutations of [a], which the store holds as [1]. *)
Lemma Get_reflects_latest_mutation_witness :
  let h := Examples.begun in
  db_Get (store h) None "a" = Found "1"
  ∧ (Get "a" EmptyString (Put "a" "7" h).2).1 = (OK, "7")
  ∧ IsNotFound (Get "a" EmptyString (Delete "a" h).2).1.1
  ∧ IsNotFound (Get "a" EmptyString (Delete "a" (Put "a" "a" h).2).2).1.1
  ∧ (Get "a" EmptyString (Put "a" "a" (Delete "a" h).2).2).1 = (OK, "a").
Proof.
  split; [reflexivity |].
  destruct (Get_reflects_latest_mutation Examples.begun)
    as (_ & H1 & H2 & H3 & H4); [reflexivity |].
  split; [apply H1 |]. split; [apply H2 |]. split; [apply H3 | apply H4].
Defined.

(** Calls on the two construction failures and on terminal transactions. *)
Lemma inactive_transaction_rejects_calls_witness :
  state_ (this Examples.without_store) = ABORTED
  ∧ state_ (this Examples.without_snapshot) = ABORTED
  ∧ state_ (this Examples.finished) = COMMITTED
  ∧ IsInvalidState (Put "a" "1" Examples.without_store).1
  ∧ IsInvalidState (Delete "a" Examples.without_snapshot).1
  ∧ IsInvalidState (Get "a" EmptyString Examples.finished).1.1
  ∧ IsInvalidState (Commit Examples.given_up).1.
Proof.
  destruct (@inactive_transaction_rejects_calls MemDB.t _ _) as (H1 & H2 & H3).
  split; [apply (H1 Examples.store_a1) |].
  split; [apply (H2 Examples.store_no_snapshots); reflexivity |].
  split; [reflexivity |].
  split; [apply (H3 Examples.without_store); by left |].
  split; [apply (H3 Examples.without_snapshot); by left |].
  split; [apply (H3 Examples.finished); right; by left |].
  apply (H3 Examples.given_up). by left.
Defined.

(** A buffered key read back, with the store changed underneath. *)
Lemma Get_buffered_key_skips_store_witness :
  let h := Examples.wrote_then_overwritten in
  let r := Get "a" EmptyString h in
  r.2 = h ∧ r.1 = (OK, "3") ∧ IsConflict (Commit h).1.
Proof.
  destruct (Get_buffered_key_skips_store Examples.wrote_then_overwritten
              "a" (BufferEntry_of "3") EmptyString)
    as (H1 & _ & _ & H2 & _ & H3); [reflexivity | reflexivity |].
  split; [exact H1 |]. split; [exact H2 |].
  apply H3. reflexivity.
Defined.

(* ===================================================================== *)
(** ** The life of a transaction *)
(* ===================================================================== *)

Section Lifetime.
Context {DB Snapshot : Type} `{!Store DB Snapshot}.

Implicit Types (h : Heap DB Snapshot) (t : Transaction Snapshot).
Implicit Types (key : string) (snapshot : option Snapshot).

Lemma CheckActive_not_OK t : IsInvalidState (CheckActive t) → CheckActive t ≠ OK.
Proof. intros H E. rewrite E in H. discriminate. Qed.

(** Every call moves the data members along [transition]. *)
Lemma run_op_transition o h : transition (this h) (this (run_op o h).2).
Proof.
  destruct (CheckActive_cases (this h)) as [Hact | Hin%CheckActive_not_OK].
  - destruct o as [key out|key v|key| |]; simpl.
    + unfold bind. destruct (write_buffer_ (this h) !! key) as [e|] eqn:He.
      * rewrite (Get_buffered _ _ _ e) by done.
        destruct (is_tombstone e); apply tr_none.
      * rewrite Get_from_store by done. simpl.
        destruct (verdict (store h) (snapshot_ (this h)) key); simpl.
        -- by apply tr_read_conflict.
        -- by apply tr_read.
    + rewrite Put_active by done. by apply (tr_write _ (BatchPut key v)).
    + rewrite Delete_active by done. by apply (tr_write _ (BatchDelete key)).
    + destruct (decide (write_buffer_ (this h) = ∅)) as [He | He].
      * rewrite Commit_read_only by done. by apply tr_commit_read_only.
      * rewrite Commit_writes by done. simpl.
        destruct (find _ _); simpl; [apply tr_none |].
        destruct (db_Write _ _) as [s d]. simpl.
        destruct s; simpl; [by apply tr_commit |].
        apply tr_abort. by apply CheckActive_OK in Hact as (? & _ & _).
    + rewrite Abort_eq. destruct (state_ (this h)) eqn:Hst; simpl;
        [by apply tr_abort | apply tr_none | apply tr_none].
  - destruct o as [key out|key v|key| |]; simpl.
    + unfold bind. rewrite Get_inactive by done. apply tr_none.
    + rewrite Put_inactive by done. apply tr_none.
    + rewrite Delete_inactive by done. apply tr_none.
    + rewrite Commit_inactive by done. apply tr_none.
    + rewrite Abort_eq. destruct (state_ (this h)) eqn:Hst; simpl;
        [by apply tr_abort | apply tr_none | apply tr_none].
Qed.

Lemma step_transition h e : transition (this h) (this (step h e)).
Proof. destruct e as [o | d]; [apply run_op_transition | apply tr_none]. Qed.

(** An invariant of [transition] that holds at construction holds over every
    run. *)
Lemma run_invariant (P : Transaction Snapshot → Prop) :
  (∀ t t', transition t t' → P t → P t') →
  ∀ es h, P (this h) → P (this (run es h)).
Proof.
  intros Hstep es. induction es as [|e es IH]; intros h HP; simpl; [done |].
  apply IH. eapply Hstep; [apply step_transition | done].
Qed.

Lemma transition_handles t t' :
  transition t t' → db_ t' = db_ t ∧ snapshot_ t' = snapshot_ t.
Proof. by intros []. Qed.

Lemma transition_terminal t t' :
  transition t t' → state_ t ≠ ACTIVE → t' = t.
Proof.
  intros [] Hst; try done;
    match goal with
    | H : CheckActive _ = OK |- _ =>
        apply CheckActive_OK in H as (? & _ & _); done
    end.
Qed.

Lemma replay_empty batch : replay batch = ∅ → batch = [].
Proof.
  destruct batch as [|o batch _] using rev_ind; [done |].
  rewrite replay_snoc. intros E.
  destruct o; simpl in E; by apply insert_non_empty in E.
Qed.

Lemma Transaction_ctor_handles db d :
  db_ (this (Transaction_ctor db d)) = db
  ∧ snapshot_ (this (Transaction_ctor db d))
    = match db with null_db => None | the_db => (db_GetSnapshot d).1 end.
Proof.
  unfold Transaction_ctor. destruct db; simpl; [done |].
  destruct (db_GetSnapshot d) as [[snap|] d']; done.
Qed.

Lemma run_handles es h :
  db_ (this (run es h)) = db_ (this h)
  ∧ snapshot_ (this (run es h)) = snapshot_ (this h).
Proof.
  apply (run_invariant
    (λ t, db_ t = db_ (this h) ∧ snapshot_ t = snapshot_ (this h))); [| done].
  intros t t' [-> ->]%transition_handles. done.
Qed.

(** X1.  The store pointer and the snapshot handle are fixed at construction:
    after every sequence of calls and external store changes the object
    still holds the pointer it was given and the handle that [GetSnapshot]
    returned (none for a null store). *)
Theorem handles_fixed_at_construction db d es :
  let h := run es (Transaction_ctor db d) in
  db_ (this h) = db
  ∧ snapshot_ (this h)
    = match db with null_db => None | the_db => (db_GetSnapshot d).1 end.
Proof.
  simpl. destruct (run_handles es (Transaction_ctor db d)) as [-> ->].
  apply Transaction_ctor_handles.
Qed.

(** X2.  Whatever calls were made and whatever state was reached, the
    destructor releases exactly the snapshot acquired at construction, on
    the store as it is then; when construction failed (null store, or no
    snapshot) it releases nothing and leaves the store alone. *)
Theorem destructor_releases_acquired_snapshot
    `{!SnapshotRelease DB Snapshot} db d es :
  let h := run es (Transaction_ctor db d) in
  Transaction_dtor h =
  match db, (db_GetSnapshot d).1 with
  | the_db, Some snapshot => (db_ReleaseSnapshot (store h) snapshot, [snapshot])
  | _, _ => (store h, [])
  end.
Proof.
  simpl. unfold Transaction_dtor.
  destruct (run_handles es (Transaction_ctor db d)) as [-> ->].
  destruct (Transaction_ctor_handles db d) as [-> ->].
  destruct db; [done |]. by destruct (db_GetSnapshot d).1.
Qed.

Lemma run_op_inactive o h :
  CheckActive (this h) ≠ OK →
  store (run_op o h).2 = store h ∧ calls (run_op o h).2 = calls h.
Proof.
  intros Hin. destruct o as [key out|key v|key| |]; simpl.
  - unfold bind. by rewrite Get_inactive.
  - by rewrite Put_inactive.
  - by rewrite Delete_inactive.
  - by rewrite Commit_inactive.
  - rewrite Abort_eq. by destruct (state_ (this h)).
Qed.

Lemma not_ACTIVE_CheckActive t : state_ t ≠ ACTIVE → CheckActive t ≠ OK.
Proof. intros Hst (? & _ & _)%CheckActive_OK. done. Qed.

(** X3.  COMMITTED and ABORTED are absorbing: once the state is not ACTIVE,
    no sequence of calls changes any data member, and none of the calls
    reaches the store. *)
Theorem terminal_state_is_absorbing h es :
  state_ (this h) ≠ ACTIVE →
  this (run es h) = this h ∧ calls (run es h) = calls h.
Proof.
  revert h. induction es as [|e es IH]; intros h Hst; simpl; [done |].
  assert (this (step h e) = this h) as Ht
    by (eapply transition_terminal; [apply step_transition | done]).
  assert (calls (step h e) = calls h) as Hc.
  { destruct e as [o | d]; simpl; [| done].
    by apply run_op_inactive, not_ACTIVE_CheckActive. }
  rewrite <- Ht, <- Hc. apply IH. by rewrite Ht.
Qed.

Lemma transition_well_formed t t' :
  transition t t' → well_formed t → well_formed t'.
Proof.
  intros Htr (Hact & Hterm & Hrep). destruct Htr as [| | |o Hok|Hok He| |];
    try done; unfold well_formed; simpl.
  - split; [intros _; exact Hok |]. split; [| by rewrite replay_snoc, Hrep].
    intros Hst. by apply CheckActive_OK in Hok as (? & _ & _).
  - split; [done |]. split; [| done]. intros _.
    split; [done |]. apply replay_empty. congruence.
Qed.

Lemma Transaction_ctor_well_formed db d :
  well_formed (this (Transaction_ctor db d)).
Proof.
  unfold Transaction_ctor, well_formed. destruct db; simpl; [done |].
  destruct (db_GetSnapshot d) as [[snap|] d']; done.
Qed.

(** X4.  From construction on, over every sequence of calls and external
    store changes: the transaction passes [CheckActive] exactly when its
    state is ACTIVE; a transaction that is no longer ACTIVE holds no
    buffered write; and the write buffer is empty exactly when the write
    batch is. *)
Theorem constructed_transaction_invariants db d es :
  let t := this (run es (Transaction_ctor db d)) in
  (state t = ACTIVE ↔ CheckActive t = OK)
  ∧ (state t ≠ ACTIVE → write_buffer_ t = ∅ ∧ write_batch_ t = [])
  ∧ (write_buffer_ t = ∅ ↔ write_batch_ t = []).
Proof.
  simpl.
  pose proof (run_invariant well_formed transition_well_formed es _
                (Transaction_ctor_well_formed db d)) as (Hact & Hterm & Hrep).
  split; [| split; [done |]].
  - split; [done |]. by intros (? & _ & _)%CheckActive_OK.
  - split.
    + intros E. apply replay_empty. congruence.
    + intros E. by rewrite <- Hrep, E.
Qed.

(** X5.  Construction gives a usable transaction exactly when the store
    pointer is not null and a snapshot could be acquired; otherwise the
    transaction is ABORTED.  Either way its read set, write buffer and write
    batch are empty. *)
Theorem Transaction_ctor_active_iff db d :
  let t := this (Transaction_ctor db d) in
  (CheckActive t = OK ↔ db = the_db ∧ is_Some (db_GetSnapshot d).1)
  ∧ (CheckActive t ≠ OK → state t = ABORTED)
  ∧ read_set_ t = ∅ ∧ write_buffer_ t = ∅ ∧ write_batch_ t = [].
Proof.
  simpl. unfold Transaction_ctor, state. destruct db; simpl.
  - split; [| done]. split; [done |]. by intros [? _].
  - destruct (db_GetSnapshot d) as [[snap|] d']; simpl.
    + split; [| done]. split; [eauto | done].
    + split; [| done]. split; [done |]. by intros [_ [? ?]].
Qed.

(** *** The calls a transaction makes on the store *)

Lemma validation_calls_reads snapshot keys :
  Forall (is_validation_read snapshot) (keys ≫= validation_calls snapshot).
Proof.
  apply Forall_forall. intros c (k & Hc & _)%list_elem_of_bind.
  unfold validation_calls in Hc.
  apply elem_of_cons in Hc as [-> | ->%list_elem_of_singleton];
    exists k; [by left | by right].
Qed.

Lemma writes_of_app (cs1 cs2 : list (StoreCall Snapshot)) :
  writes_of (cs1 ++ cs2) = writes_of cs1 ++ writes_of cs2.
Proof.
  induction cs1 as [|[| |b] cs1 IH]; simpl; [done | done | done |].
  by rewrite IH.
Qed.

Lemma writes_of_reads snapshot (cs : list (StoreCall Snapshot)) :
  Forall (is_validation_read snapshot) cs → writes_of cs = [].
Proof.
  induction 1 as [|c cs [k [-> | ->]] _ IH]; simpl; done.
Qed.

(** One call appends validation reads, and at most one write after them;
    a call that writes leaves the transaction not ACTIVE. *)
Lemma run_op_calls o h :
  ∃ reads,
    Forall (is_validation_read (snapshot_ (this h))) reads
    ∧ (calls (run_op o h).2 = calls h ++ reads
       ∨ (CheckActive (this h) = OK
          ∧ state_ (this (run_op o h).2) ≠ ACTIVE
          ∧ calls (run_op o h).2
            = calls h ++ reads ++ [CallWrite (write_batch_ (this h))])).
Proof.
  destruct (CheckActive_cases (this h)) as [Hact | Hin%CheckActive_not_OK].
  - destruct o as [key out|key v|key| |]; simpl.
    + unfold bind. destruct (write_buffer_ (this h) !! key) as [e|] eqn:He.
      * rewrite (Get_buffered _ _ _ e) by done. exists [].
        split; [done |]. left. rewrite app_nil_r. by destruct (is_tombstone e).
      * rewrite Get_from_store by done. simpl.
        exists ([key] ≫= validation_calls (snapshot_ (this h))).
        split; [apply validation_calls_reads | by left].
    + rewrite Put_active by done. exists []. split; [done |]. left.
      simpl. by rewrite app_nil_r.
    + rewrite Delete_active by done. exists []. split; [done |]. left.
      simpl. by rewrite app_nil_r.
    + destruct (decide (write_buffer_ (this h) = ∅)) as [He | He].
      * rewrite Commit_read_only by done. exists []. split; [done |]. left.
        simpl. by rewrite app_nil_r.
      * rewrite Commit_writes by done. simpl.
        eexists. split; [apply validation_calls_reads |].
        destruct (find _ _); simpl; [by left |].
        destruct (db_Write _ _) as [s d]. simpl. right.
        split; [done |]. split; [| done]. by destruct s.
    + rewrite Abort_eq. exists []. split; [done |]. left. rewrite app_nil_r.
      by destruct (state_ (this h)).
  - exists []. split; [done |]. left. rewrite app_nil_r.
    by apply run_op_inactive.
Qed.

(** X6.  A transaction writes to the store at most once in its life, and
    not while it is still ACTIVE afterwards: from construction on, over
    every sequence of calls and external store changes, the record of store
    calls holds at most one [Write], and none as long as the state is
    ACTIVE. *)
Theorem transaction_writes_at_most_once db d es :
  let h := run es (Transaction_ctor db d) in
  length (writes_of (calls h)) ≤ 1
  ∧ (state (this h) = ACTIVE → writes_of (calls h) = []).
Proof.
  simpl.
  assert (∀ h, (length (writes_of (calls h)) ≤ 1
                ∧ (state_ (this h) = ACTIVE → writes_of (calls h) = [])) →
          length (writes_of (calls (run es h))) ≤ 1
          ∧ (state_ (this (run es h)) = ACTIVE
             → writes_of (calls (run es h)) = [])) as Hrun.
  { induction es as [|e es IH]; intros h Hinv; simpl; [done |].
    apply IH. destruct Hinv as [Hlen Hactive].
    destruct e as [o | d']; simpl; [| done].
    destruct (run_op_calls o h) as (reads & Hreads & [-> | (Hact & Hst & ->)]).
    - rewrite writes_of_app, (writes_of_reads _ _ Hreads), app_nil_r.
      split; [done |]. intros Hst'. apply Hactive.
      destruct (decide (state_ (this h) = ACTIVE)) as [| Hne]; [done |].
      pose proof (transition_terminal _ _ (run_op_transition o h) Hne) as E.
      congruence.
    - apply CheckActive_OK in Hact as (Hact & _ & _).
      rewrite !writes_of_app, (writes_of_reads _ _ Hreads), (Hactive Hact).
      simpl. split; [lia | done]. }
  apply Hrun. unfold Transaction_ctor. destruct db; simpl; [split; [lia | done] |].
  destruct (db_GetSnapshot d) as [snap d']. simpl. split; [lia | done].
Qed.

(** X7.  Every call a transaction makes on the store is the [GetSnapshot] of
    its construction, a read of the latest state, a read as of the handle it
    holds (the one acquired at construction), or a [Write]: no read ever
    uses another snapshot. *)
Theorem reads_use_the_held_snapshot db d es c :
  let h := run es (Transaction_ctor db d) in
  c ∈ calls h →
  c = CallGetSnapshot
  ∨ is_validation_read (snapshot_ (this h)) c
  ∨ ∃ b, c = CallWrite b.
Proof.
  simpl.
  assert (∀ h,
    (∀ c, c ∈ calls h → c = CallGetSnapshot
          ∨ is_validation_read (snapshot_ (this h)) c ∨ ∃ b, c = CallWrite b) →
    ∀ c, c ∈ calls (run es h) → c = CallGetSnapshot
          ∨ is_validation_read (snapshot_ (this (run es h))) c
          ∨ ∃ b, c = CallWrite b) as Hrun.
  { induction es as [|e es IH]; intros h Hinv; simpl; [done |].
    apply IH. intros c' Hc'.
    destruct (transition_handles _ _ (step_transition h e)) as [_ ->].
    destruct e as [o | d']; simpl in Hc'; [| by apply Hinv].
    destruct (run_op_calls o h) as (reads & Hreads & [E | (_ & _ & E)]);
      rewrite E in Hc'; rewrite Forall_forall in Hreads.
    - apply elem_of_app in Hc' as [? | ?]; [by apply Hinv | right; left; eauto].
    - rewrite app_assoc in Hc'.
      apply elem_of_app in Hc' as [[? | ?]%elem_of_app | ->%list_elem_of_singleton];
        [by apply Hinv | right; left; eauto | right; right; eauto]. }
  apply Hrun. intros c'. unfold Transaction_ctor. destruct db; simpl.
  - by intros ?%elem_of_nil.
  - destruct (db_GetSnapshot d) as [snap d']. simpl.
    intros ->%list_elem_of_singleton. by left.
Qed.

(** *** Commit when validation passes *)





(** X9.  Commit returns OK exactly when it leaves the transaction COMMITTED:
    on an ACTIVE transaction the two are equivalent, and on any transaction
    OK implies COMMITTED with an empty write buffer. *)
Theorem Commit_OK_iff_COMMITTED h :
  let r := Commit h in
  (r.1 = OK → state (this r.2) = COMMITTED ∧ write_buffer_ (this r.2) = ∅)
  ∧ (CheckActive (this h) = OK → state (this r.2) = COMMITTED → r.1 = OK).
Proof.
  simpl. destruct (CheckActive_cases (this h)) as [Hact | Hin].
  - destruct (decide (write_buffer_ (this h) = ∅)) as [He | He].
    + rewrite Commit_read_only by done. done.
    + rewrite Commit_writes by done. simpl.
      pose proof Hact as (Hst & _ & _)%CheckActive_OK.
      destruct (find _ _); simpl.
      * unfold state. rewrite Hst. done.
      * destruct (db_Write _ _) as [s d]. simpl. by destruct s.
  - pose proof (CheckActive_not_OK _ Hin) as Hne.
    rewrite Commit_inactive by done. simpl. split; [done |]. done.
Qed.

(** X10.  Commit touches the store in one way only: either the store is
    exactly as before and no [Write] was issued, or the transaction was
    ACTIVE with buffered writes, every key passed re-validation, and the
    store is what [Write] of the write batch made of it. *)
Theorem Commit_store_effect h :
  let r := Commit h in
  (store r.2 = store h ∧ writes_of (calls r.2) = writes_of (calls h))
  ∨ (CheckActive (this h) = OK
     ∧ write_buffer_ (this h) ≠ ∅
     ∧ validates h
     ∧ store r.2 = (db_Write (store h) (write_batch_ (this h))).2
     ∧ writes_of (calls r.2)
       = writes_of (calls h) ++ [write_batch_ (this h)]).
Proof.
  simpl.
  destruct (CheckActive_cases (this h)) as [Hact | Hin%CheckActive_not_OK];
    [| left; by rewrite Commit_inactive].
  destruct (decide (write_buffer_ (this h) = ∅)) as [He | He];
    [left; by rewrite Commit_read_only |].
  rewrite Commit_writes by done. simpl.
  destruct (find _ _) as [k|] eqn:Hfind; simpl.
  - left. split; [done |]. rewrite writes_of_app.
    rewrite (writes_of_reads _ _ (validation_calls_reads _ _)).
    by rewrite app_nil_r.
  - right. split; [done |]. split; [done |]. split.
    + intros key Hin%elem_of_commit_keys.
      rewrite ValidateSnapshotIsolation_verdict.
      apply list_elem_of_In in Hin.
      by rewrite (find_none _ _ Hfind _ Hin).
    + destruct (db_Write _ _) as [s d]. simpl. split; [done |].
      rewrite !writes_of_app.
      by rewrite (writes_of_reads _ _ (validation_calls_reads _ _)).
Qed.

(** *** Reads from the store *)

(** X11.  On an ACTIVE transaction, a Get of a key without a buffer entry
    whose validation finds no conflict returns OK; when the key exists the
    value returned is the one the snapshot holds (which is also the current
    one), and when it does not the out-parameter is left as it was.  The key
    joins the read set, the state stays ACTIVE, the buffers and the store
    are untouched, and the store saw two reads: one as of the snapshot, one
    of the latest state. *)
Theorem Get_returns_snapshot_value h key out :
  CheckActive (this h) = OK →
  write_buffer_ (this h) !! key = None →
  ¬ IsConflict (ValidateSnapshotIsolation (snapshot_ (this h)) key out h).1.1 →
  let r := Get key out h in
  r.1.1 = OK
  ∧ r.1.2 = out_param (db_Get (store h) (snapshot_ (this h)) key) out
  ∧ r.1.2 = out_param (db_Get (store h) None key) out
  ∧ this r.2 = with_read_set_ (this h) ({[key]} ∪ read_set_ (this h))
  ∧ state (this r.2) = ACTIVE
  ∧ store r.2 = store h
  ∧ calls r.2
    = calls h ++ [CallGet (snapshot_ (this h)) key; CallGet None key].
Proof.
  intros Hact Hbuf Hv. rewrite ValidateSnapshotIsolation_verdict in Hv.
  simpl. rewrite Get_from_store by done. simpl.
  pose proof Hact as (Hst & _ & _)%CheckActive_OK.
  unfold verdict in *.
  destruct (db_Get (store h) (snapshot_ (this h)) key) as [a|fa],
           (db_Get (store h) None key) as [b|fb]; simpl in *; try done.
  destruct (decide (a = b)) as [-> | Hne].
  - rewrite bool_decide_eq_false_2 by (intros ?; done). done.
  - rewrite bool_decide_eq_true_2 in Hv by done. done.
Qed.

(** X12.  Get answers NotFound in one case only: the transaction is ACTIVE
    and the key's write-buffer entry is a tombstone.  Its status is always
    OK, NotFound, a conflict or InvalidState: a failure of a store read is
    never passed on to the caller. *)
Theorem Get_status h key out :
  let s := (Get key out h).1.1 in
  (IsNotFound s ↔
   CheckActive (this h) = OK
   ∧ ∃ e, write_buffer_ (this h) !! key = Some e ∧ is_tombstone e = true)
  ∧ (s = OK ∨ IsNotFound s ∨ IsConflict s ∨ IsInvalidState s).
Proof.
  simpl. destruct (CheckActive_cases (this h)) as [Hact | Hin].
  - destruct (write_buffer_ (this h) !! key) as [e|] eqn:He.
    + rewrite (Get_buffered _ _ _ e) by done.
      destruct (is_tombstone e) eqn:Ht; simpl.
      * split; [| right; by left]. split; [eauto | done].
      * split; [| by left]. split; [done |].
        intros (_ & e' & [= <-] & ?). congruence.
    + rewrite Get_from_store by done. simpl.
      destruct (verdict _ _ _); simpl.
      * split; [| right; right; by left]. split; [done |].
        by intros (_ & e' & ? & _).
      * split; [| by left]. split; [done |]. by intros (_ & e' & ? & _).
  - pose proof (CheckActive_not_OK _ Hin) as Hne.
    rewrite Get_inactive by done. simpl. split; [| by repeat right].
    split; [| by intros [? _]].
    intros Hnf. unfold IsNotFound, IsInvalidState in *. congruence.
Qed.

(** *** Buffered writes, abort, and how calls compose *)

(** X13.  Put and Delete are local: they succeed exactly on an ACTIVE
    transaction, never call the store, and leave the store, the state and
    the read set as they were; on success only the entry of the given key
    changes in the write buffer. *)
Theorem Put_Delete_are_local h key v :
  let p := Put key v h in
  let q := Delete key h in
  (p.1 = OK ↔ CheckActive (this h) = OK)
  ∧ (q.1 = OK ↔ CheckActive (this h) = OK)
  ∧ (store p.2 = store h ∧ calls p.2 = calls h
     ∧ state (this p.2) = state (this h)
     ∧ read_set_ (this p.2) = read_set_ (this h))
  ∧ (store q.2 = store h ∧ calls q.2 = calls h
     ∧ state (this q.2) = state (this h)
     ∧ read_set_ (this q.2) = read_set_ (this h))
  ∧ (∀ k, k ≠ key →
          write_buffer_ (this p.2) !! k = write_buffer_ (this h) !! k
          ∧ write_buffer_ (this q.2) !! k = write_buffer_ (this h) !! k).
Proof.
  simpl. destruct (CheckActive_cases (this h)) as [Hact | Hin].
  - rewrite Put_active, Delete_active by done. simpl.
    repeat split; try done; intros; by rewrite lookup_insert_ne.
  - pose proof (CheckActive_not_OK _ Hin) as Hne.
    rewrite Put_inactive, Delete_inactive by done. simpl.
    repeat split; done.
Qed.

(** X14.  Abort is idempotent: a second Abort returns what the first
    returned and leaves the heap as the first left it, in every state. *)
Theorem Abort_idempotent h : Abort (Abort h).2 = Abort h.
Proof.
  rewrite (Abort_eq h). destruct (state_ (this h)) eqn:Hst; simpl.
  - by rewrite Abort_eq.
  - by rewrite Abort_eq, Hst.
  - by rewrite Abort_eq, Hst.
Qed.





End Lifetime.

(* ===================================================================== *)
(** ** Two transactions on the in-memory store *)
(* ===================================================================== *)



Lemma foldl_apply_op_lookup (m : gmap string string) batch k :
  foldl MemDB.apply_op m batch !! k =
  match replay batch !! k with
  | Some e => entry_result e
  | None => m !! k
  end.
Proof.
  induction batch as [|o batch IH] using rev_ind; [done |].
  rewrite foldl_app, replay_snoc. simpl.
  destruct o as [k' v | k']; simpl;
    (destruct (decide (k' = k)) as [-> | Hne];
     [ rewrite ?lookup_insert_eq, ?lookup_delete_eq; done
     | rewrite ?lookup_insert_ne, ?lookup_delete_ne by done; exact IH ]).
Qed.

(** X16.  On the in-memory store Commit is all-or-nothing, for every
    transaction history from construction on.  If Commit returns OK, then
    afterwards every key with a write-buffer entry reads as that entry says
    (the value of the last Put, or absent after a Delete) and every other key
    reads as before; if it returns an error, the store is exactly as
    before. *)
Theorem MemDB_Commit_is_all_or_nothing db (d : MemDB.t) es :
  let h := run es (Transaction_ctor db d) in
  let r := Commit h in
  match r.1 with
  | OK =>
      ∀ k, MemDB.contents (store r.2) !! k =
           match write_buffer_ (this h) !! k with
           | Some e => entry_result e
           | None => MemDB.contents (store h) !! k
           end
  | Err _ => store r.2 = store h
  end.
Proof.
  simpl. set (h := run es (Transaction_ctor db d)).
  pose proof (run_invariant well_formed transition_well_formed es _
                (Transaction_ctor_well_formed db d)) as (_ & _ & Hrep).
  fold h in Hrep.
  destruct (CheckActive_cases (this h)) as [Hact | Hin].
  - destruct (decide (write_buffer_ (this h) = ∅)) as [He | He].
    + rewrite Commit_read_only by done. simpl. intros k.
      by rewrite He, lookup_empty.
    + rewrite Commit_writes by done. simpl.
      destruct (find _ _); simpl; [done |].
      destruct (MemDB.writes_succeed (store h)); simpl; [| done].
      intros k. by rewrite foldl_apply_op_lookup, Hrep.
  - pose proof (CheckActive_not_OK _ Hin) as Hne.
    rewrite Commit_inactive by done. simpl.
    destruct (CheckActive (this h)); [done | done].
Qed.



(* ===================================================================== *)
(** ** The life of a transaction on concrete runs *)
(* ===================================================================== *)

(** Calls on a transaction that has committed. *)
Lemma terminal_state_is_absorbing_witness :
  state_ (this Examples.finished) = COMMITTED
  ∧ this (run Runs.after_commit Examples.finished) = this Examples.finished
  ∧ calls (run Runs.after_commit Examples.finished) = calls Examples.finished.
Proof.
  split; [reflexivity |].
  apply (terminal_state_is_absorbing Examples.finished Runs.after_commit).
  discriminate.
Defined.

(** The read of the latest state that a Get of [a] makes. *)
Lemma reads_use_the_held_snapshot_witness :
  let h := run [Call (OpGet "a" EmptyString)]
             (Transaction_ctor the_db Examples.store_a1) in
  Runs.read_latest_a ∈ calls h
  ∧ (Runs.read_latest_a = CallGetSnapshot
     ∨ is_validation_read (snapshot_ (this h)) Runs.read_latest_a
     ∨ ∃ b, Runs.read_latest_a = CallWrite b).
Proof.
  assert (Runs.read_latest_a
          ∈ calls (run [Call (OpGet "a" EmptyString)]
                     (Transaction_ctor the_db Examples.store_a1))) as Hin.
  { apply list_elem_of_In. vm_compute. tauto. }
  split; [exact Hin |].
  exact (reads_use_the_held_snapshot the_db Examples.store_a1
           [Call (OpGet "a" EmptyString)] Runs.read_latest_a Hin).
Defined.


(** A Get of [a], which holds [1] at the snapshot and now. *)
Lemma Get_returns_snapshot_value_witness :
  let h := Examples.begun in
  let r := Get "a" "junk" h in
  db_Get (store h) (snapshot_ (this h)) "a" = Found "1"
  ∧ r.1 = (OK, "1")
  ∧ state (this r.2) = ACTIVE
  ∧ store r.2 = store h.
Proof.
  split; [reflexivity |].
  destruct (Get_returns_snapshot_value Examples.begun "a" "junk")
    as (Hs & Hv & _ & _ & Hst & Hd & _).
  - reflexivity.
  - reflexivity.
  - intros H. vm_compute in H. discriminate.
  - split; [| split; [exact Hst | exact Hd]].
    rewrite (surjective_pairing (Get "a" "junk" Examples.begun).1).
    rewrite Hs, Hv. reflexivity.
Defined.


